(** * Spelling correction: the candidate-generation and ranking engine

    A shallow embedding of [edit_one_letter], [edit_two_letters] and
    [get_corrections] of [app/app.py], and the properties the
    specification states about them.

    Python values are modelled as follows.
    - [str] is [string], a sequence of 8-bit characters, which holds the
      letters ['a'..'z'] and characters outside them; a one-character [str]
      such as [R[1]] or the loop variable of [for c in letters] is a
      [string] of length one.
    - [Set[str]] is [gset string]; [Dict[str, float]] is [gmap string Q]:
      a finite probability is represented by its exact rational value, and
      the comparisons of finite floats agree with those of the rationals.
    - Subscripting a [str] out of range raises [IndexError]; code that can
      raise lives in the [result] monad.
    - Iterating over a set visits its elements once each, in an order the
      language leaves open: the functions that iterate over a set take the
      enumeration [iter] as a parameter. *)

From Stdlib Require Import Ascii QArith.
From stdpp Require Import base gmap sets list sorting strings.

#[local] Set Warnings "-clear-no-such-hyp".
Local Open Scope nat_scope.

(** ** Exceptions *)

Inductive exn : Type := IndexError.

Inductive result (A : Type) : Type :=
| Ok (a : A)
| Raise (e : exn).
Arguments Ok {A} a.
Arguments Raise {A} e.

#[global] Instance result_ret : MRet result := λ A, Ok.
#[global] Instance result_bind : MBind result := λ A B f m,
  match m with
  | Ok a => f a
  | Raise e => Raise e
  end.

(** A comprehension [[f x for x in l]] whose body may raise: the elements are
    evaluated from left to right and the first exception ends the loop. *)
Fixpoint comprehension {A B : Type} (f : A → result B) (l : list A)
  : result (list B) :=
  match l with
  | [] => Ok []
  | x :: l' => y ← f x; ys ← comprehension f l'; Ok (y :: ys)
  end.

(** ** Python's [str] operations *)

Module Py.

Definition len (s : string) : nat := String.length s.

(** [s[:i]] for [0 <= i]: the first [i] characters, all of [s] when it is
    shorter. *)
Fixpoint slice_to (i : nat) (s : string) : string :=
  match i, s with
  | S i', String c s' => String c (slice_to i' s')
  | _, _ => EmptyString
  end.

(** [s[i:]] for [0 <= i]: what is left after the first [i] characters,
    the empty string when [s] is shorter. *)
Fixpoint slice_from (i : nat) (s : string) : string :=
  match i, s with
  | S i', String _ s' => slice_from i' s'
  | _, _ => s
  end.

(** [s[i]] for [0 <= i]: a string of length one, or [IndexError]. *)
Definition item (s : string) (i : nat) : result string :=
  match String.get i s with
  | Some c => Ok (String c EmptyString)
  | None => Raise IndexError
  end.

(** Truth value of a string: [if s] holds when [s] is not empty. *)
Definition truthy (s : string) : bool :=
  match s with
  | EmptyString => false
  | String _ _ => true
  end.

(** [for c in s]: the characters of [s], each as a string of length one. *)
Fixpoint chars (s : string) : list string :=
  match s with
  | EmptyString => []
  | String c s' => String c EmptyString :: chars s'
  end.

(** [range(n)] *)
Definition range (n : nat) : list nat := seq 0 n.

End Py.

(** ** [edit_one_letter] *)

Definition letters : string := "abcdefghijklmnopqrstuvwxyz".

(** [[(word[:i], word[i:]) for i in range(len(word) + 1)]] *)
Definition splits (word : string) : list (string * string) :=
  i ← Py.range (Py.len word + 1);
  [(Py.slice_to i word, Py.slice_from i word)].

(** [[L + R[1:] for L, R in splits if R]] *)
Definition deletes (word : string) : list string :=
  '(L, R) ← splits word;
  if Py.truthy R then [L +:+ Py.slice_from 1 R] else [].

(** [[L + R[1] + R[0] + R[2:] for L, R in splits if len(R) > 1]] *)
Definition transposes (word : string) : result (list string) :=
  comprehension
    (λ '(L, R),
       r1 ← Py.item R 1;
       r0 ← Py.item R 0;
       Ok (L +:+ r1 +:+ r0 +:+ Py.slice_from 2 R))
    (List.filter (λ '(L, R), 1 <? Py.len R) (splits word)).

(** [[L + c + R[1:] for L, R in splits if R for c in letters]] *)
Definition replaces (word : string) : list string :=
  '(L, R) ← splits word;
  if Py.truthy R
  then c ← Py.chars letters; [L +:+ c +:+ Py.slice_from 1 R]
  else [].

(** [[L + c + R for L, R in splits for c in letters]] *)
Definition inserts (word : string) : list string :=
  '(L, R) ← splits word;
  c ← Py.chars letters;
  [L +:+ c +:+ R].

(** [set(deletes + transposes + replaces + inserts)]; the parameter
    [allow_switches] is accepted and never read. *)
Definition edit_one_letter (word : string) (allow_switches : bool)
  : result (gset string) :=
  ts ← transposes word;
  Ok (list_to_set (deletes word ++ ts ++ replaces word ++ inserts word)).

(** ** [sorted(l, key=..., reverse=True)]

    Python's [sorted] is stable, also under [reverse=True]: elements whose
    keys are equal keep the order they had in [l]. The result of a stable
    sort is determined by [l] and the keys, so the insertion sort below
    returns the list Python's sort returns. *)

Fixpoint insert_reverse {A : Type} (key : A → Q) (x : A) (l : list A)
  : list A :=
  match l with
  | [] => [x]
  | y :: l' =>
      if Qle_bool (key y) (key x) then x :: y :: l'
      else y :: insert_reverse key x l'
  end.

Definition sorted_reverse {A : Type} (key : A → Q) (l : list A) : list A :=
  foldr (insert_reverse key) [] l.

(** ** [edit_two_letters] and [get_corrections] *)

Section Engine.

(** The order in which a set is iterated: some enumeration of its
    elements, each once. *)
Variable iter : gset string → list string.

(** [set(e2 for e1 in edit_one_letter(word, allow_switches)
            for e2 in edit_one_letter(e1, allow_switches))] *)
Definition edit_two_letters (word : string) (allow_switches : bool)
  : result (gset string) :=
  e1s ← edit_one_letter word allow_switches;
  e2ss ← comprehension
           (λ e1, e2s ← edit_one_letter e1 allow_switches; Ok (iter e2s))
           (iter e1s);
  Ok (list_to_set (mjoin e2ss)).

(** [probs.get(s, 0)] *)
Definition dict_get (probs : gmap string Q) (s : string) (d : Q) : Q :=
  default d (probs !! s).

(** [suggestions = list(edit_two_letters(word).intersection(vocab))]
    [sorted([(s, probs.get(s, 0)) for s in suggestions],
            key=lambda x: x[1], reverse=True)] *)
Definition get_corrections
    (word : string) (probs : gmap string Q) (vocab : gset string)
  : result (list (string * Q)) :=
  e2s ← edit_two_letters word true;
  let suggestions := iter (e2s ∩ vocab) in
  Ok (sorted_reverse snd ((λ s, (s, dict_get probs s 0%Q)) <$> suggestions)).

End Engine.

(** ** The specification's reading of [oneEdit]

    The alphabet is the range ['a'..'z']; the four edit families are taken
    at one split [(left, right)], and [oneEdit] is their union over every
    split position. *)

Module Spec.

Definition alphabet : list string :=
  (λ n, String (Ascii.ascii_of_nat n) EmptyString) <$> seq 97 26.

Definition delete (left right : string) : gset string :=
  match right with
  | EmptyString => ∅
  | String _ right1 => {[ left +:+ right1 ]}
  end.

Definition transpose (left right : string) : gset string :=
  match right with
  | String r0 (String r1 right2) =>
      {[ left +:+ String r1 (String r0 right2) ]}
  | _ => ∅
  end.

Definition replace (left right : string) : gset string :=
  match right with
  | EmptyString => ∅
  | String _ right1 => list_to_set ((λ c, left +:+ c +:+ right1) <$> alphabet)
  end.

Definition insert (left right : string) : gset string :=
  list_to_set ((λ c, left +:+ c +:+ right) <$> alphabet).

Definition edits_at (word : string) (i : nat) : gset string :=
  let left := Py.slice_to i word in
  let right := Py.slice_from i word in
  delete left right ∪ transpose left right
    ∪ replace left right ∪ insert left right.

Definition oneEdit (word : string) : gset string :=
  ⋃ (edits_at word <$> seq 0 (S (String.length word))).

End Spec.

(** ** Values the proofs speak about *)

(** The list the transposing comprehension evaluates to: the guard
    [len(R) > 1] keeps both subscripts in range, so it never raises. *)
Definition transposes_list (word : string) : list string :=
  '(L, R) ← splits word;
  match R with
  | String r0 (String r1 R2) => [L +:+ String r1 (String r0 R2)]
  | _ => []
  end.

(** The candidates of one pass, as the list that [set] receives. *)
Definition one_edits (word : string) : list string :=
  deletes word ++ transposes_list word ++ replaces word ++ inserts word.

(** The candidates of two passes, as a list. *)
Definition two_edits (word : string) : list string :=
  e1 ← one_edits word; one_edits e1.

(** [x] may stand before [y] in a list sorted by decreasing key. *)
Definition decreasing {A : Type} (key : A → Q) (x y : A) : Prop :=
  (key y <= key x)%Q.

(** Some character of [w] is a letter of ['a'..'z']. *)
Definition has_letter (w : string) : Prop :=
  ∃ c, c ∈ Py.chars w ∧ c ∈ Py.chars letters.

(** Every character of [w] is a letter of ['a'..'z']. *)
Definition over_alphabet (w : string) : Prop :=
  ∀ c, c ∈ Py.chars w → c ∈ Py.chars letters.

(** Some character of [w] is not a letter of ['a'..'z']. *)
Definition outside_alphabet (w : string) : Prop :=
  ∃ c, c ∈ Py.chars w ∧ c ∉ Py.chars letters.


(** [(s, probs.get(s, 0))] *)
Definition scored (probs : gmap string Q) (s : string) : string * Q :=
  (s, dict_get probs s 0%Q).

(** A table and a vocabulary to run the engine on. *)
Definition example_probs : gmap string Q :=
  {[ "a" := (1 # 2)%Q; "b" := (1 # 4)%Q ]}.

Definition example_vocab : gset string := {[ "a"; "b"; "ab" ]}.

(** [x] has the key [k]. *)
Definition has_key {A : Type} (key : A → Q) (k : Q) (x : A) : bool :=
  Qeq_bool (key x) k.

(** ** What [main] computes when the form is submitted

    [main] hands these values to [st.metric]: the first five corrections,
    numbered from 1 ([enumerate(corrections[:5], 1)], the probability before
    it is formatted), and the sizes of the three sets. The calls that draw
    the page and the flowchart are left out. *)

(** [enumerate(l, start)] *)
Definition enumerate {A : Type} (start : nat) (l : list A) : list (nat * A) :=
  zip (seq start (length l)) l.

Record metrics : Type := Metrics {
  suggestion : list (nat * (string * Q));
  one_edit_words : nat;
  two_edit_words : nat;
  valid_suggestions : nat
}.

Definition main_submitted (iter : gset string → list string)
    (user_word : string) (probs : gmap string Q) (vocab : gset string)
  : result metrics :=
  one_edits ← edit_one_letter user_word true;
  two_edits ← edit_two_letters iter user_word true;
  let valid_words := two_edits ∩ vocab in
  corrections ← get_corrections iter user_word probs vocab;
  Ok {| suggestion := enumerate 1 (take 5 corrections);
        one_edit_words := size one_edits;
        two_edit_words := size two_edits;
        valid_suggestions := size valid_words |}.

(** ** Strings *)

Lemma app_String c s t : String c s +:+ t = String c (s +:+ t).
Proof. reflexivity. Qed.

Lemma app_empty_l s : EmptyString +:+ s = s.
Proof. reflexivity. Qed.

Lemma length_app s t :
  String.length (s +:+ t) = String.length s + String.length t.
Proof.
  induction s as [|c s IH]; [reflexivity|].
  rewrite app_String. simpl. by rewrite IH.
Qed.

Lemma slice_to_from i s : Py.slice_to i s +:+ Py.slice_from i s = s.
Proof.
  revert s. induction i as [|i IH]; intros [|c s]; try reflexivity.
  simpl. rewrite app_String. by rewrite IH.
Qed.

Lemma length_slice_from i s :
  String.length (Py.slice_from i s) = String.length s - i.
Proof.
  revert s. induction i as [|i IH]; intros [|c s]; simpl; auto with lia.
Qed.

Lemma length_slice_to i s :
  i ≤ String.length s → String.length (Py.slice_to i s) = i.
Proof.
  revert s. induction i as [|i IH]; intros [|c s]; simpl; intros ?; try lia.
  rewrite IH; lia.
Qed.

Lemma slice_from_1 c s : Py.slice_from 1 (String c s) = s.
Proof. by destruct s. Qed.

Lemma slice_from_2 c d s : Py.slice_from 2 (String c (String d s)) = s.
Proof. by destruct s. Qed.

Lemma letters_alphabet : Py.chars letters = Spec.alphabet.
Proof. reflexivity. Qed.

Lemma length_alphabet c : c ∈ Spec.alphabet → String.length c = 1.
Proof.
  unfold Spec.alphabet. intros (n & -> & _)%list_elem_of_fmap. reflexivity.
Qed.

(** ** The splits of a word *)

Lemma elem_of_splits L R word :
  (L, R) ∈ splits word ↔
  ∃ i, i ≤ String.length word
       ∧ L = Py.slice_to i word ∧ R = Py.slice_from i word.
Proof.
  unfold splits, Py.range, Py.len. rewrite list_elem_of_bind. split.
  - intros (i & Hi%list_elem_of_singleton & Hseq%elem_of_seq).
    exists i. simplify_eq. split_and!; [lia|done..].
  - intros (i & Hi & -> & ->). exists i. split; [by left|].
    apply elem_of_seq. lia.
Qed.

Lemma splits_app L R word : (L, R) ∈ splits word → L +:+ R = word.
Proof.
  intros (i & _ & -> & ->)%elem_of_splits. apply slice_to_from.
Qed.

Lemma splits_intro L R : (L, R) ∈ splits (L +:+ R).
Proof.
  apply elem_of_splits. exists (String.length L).
  rewrite length_app. split; [lia|].
  induction L as [|c L [IH1 IH2]]; [by destruct R|].
  rewrite app_String. simpl. split; [by rewrite <-IH1|done].
Qed.

(** ** Comprehensions that do not raise *)

Lemma comprehension_ok {A B : Type} (f : A → result B) (g : A → B) l :
  (∀ x, x ∈ l → f x = Ok (g x)) → comprehension f l = Ok (g <$> l).
Proof.
  induction l as [|x l IH]; intros Hf; [reflexivity|].
  simpl. rewrite Hf by left. simpl.
  rewrite IH by (intros; apply Hf; by right). reflexivity.
Qed.

Lemma comprehension_filter_ok {A B : Type}
    (f : A → result B) (p : A → bool) (g : A → list B) l :
  (∀ x, p x = true → ∃ y, f x = Ok y ∧ g x = [y]) →
  (∀ x, p x = false → g x = []) →
  comprehension f (List.filter p l) = Ok (l ≫= g).
Proof.
  intros Hyes Hno. induction l as [|x l IH]; [reflexivity|].
  cbn [List.filter]. change ((x :: l) ≫= g) with (g x ++ l ≫= g).
  destruct (p x) eqn:Hp.
  - destruct (Hyes x Hp) as (y & Hy & ->).
    cbn [comprehension]. rewrite Hy, IH. reflexivity.
  - rewrite (Hno x Hp). apply IH.
Qed.

Lemma transposes_ok word : transposes word = Ok (transposes_list word).
Proof.
  unfold transposes, transposes_list.
  apply comprehension_filter_ok.
  - intros [L [|r0 [|r1 R2]]] Hlen; try discriminate Hlen.
    eexists. split; reflexivity.
  - intros [L [|r0 [|r1 R2]]] Hlen; try discriminate Hlen; reflexivity.
Qed.

Lemma edit_one_letter_ok word allow_switches :
  edit_one_letter word allow_switches = Ok (list_to_set (one_edits word)).
Proof. unfold edit_one_letter. rewrite transposes_ok. reflexivity. Qed.

(** Membership in each family, by the split that produces the member. *)

Lemma elem_of_deletes x word :
  x ∈ deletes word ↔ ∃ L c R, word = L +:+ String c R ∧ x = L +:+ R.
Proof.
  unfold deletes. rewrite list_elem_of_bind. split.
  - intros ([L [|c R]] & Hx & Hsp); cbn [Py.truthy] in Hx; [by inversion Hx|].
    apply list_elem_of_singleton in Hx. rewrite slice_from_1 in Hx.
    exists L, c, R. by rewrite (splits_app _ _ _ Hsp).
  - intros (L & c & R & -> & ->). exists (L, String c R).
    split; [|apply splits_intro]. cbn [Py.truthy]. rewrite slice_from_1.
    by left.
Qed.

Lemma elem_of_transposes_list x word :
  x ∈ transposes_list word ↔
  ∃ L r0 r1 R, word = L +:+ String r0 (String r1 R)
               ∧ x = L +:+ String r1 (String r0 R).
Proof.
  unfold transposes_list. rewrite list_elem_of_bind. split.
  - intros ([L [|r0 [|r1 R]]] & Hx & Hsp); simpl in Hx;
      [by inversion Hx..|].
    apply list_elem_of_singleton in Hx.
    exists L, r0, r1, R. by rewrite (splits_app _ _ _ Hsp).
  - intros (L & r0 & r1 & R & -> & ->). exists (L, String r0 (String r1 R)).
    split; [by left|apply splits_intro].
Qed.

Lemma elem_of_replaces x word :
  x ∈ replaces word ↔
  ∃ L r0 R c, word = L +:+ String r0 R ∧ c ∈ Py.chars letters
              ∧ x = L +:+ c +:+ R.
Proof.
  unfold replaces. rewrite list_elem_of_bind. split.
  - intros ([L [|r0 R]] & Hx & Hsp); cbn [Py.truthy] in Hx;
      [by inversion Hx|].
    apply list_elem_of_bind in Hx as (c & Hx%list_elem_of_singleton & Hc).
    rewrite slice_from_1 in Hx.
    exists L, r0, R, c. by rewrite (splits_app _ _ _ Hsp).
  - intros (L & r0 & R & c & -> & Hc & ->). exists (L, String r0 R).
    split; [|apply splits_intro]. cbn [Py.truthy].
    apply list_elem_of_bind. exists c. split; [|done].
    rewrite slice_from_1. by left.
Qed.

Lemma elem_of_inserts x word :
  x ∈ inserts word ↔
  ∃ L R c, word = L +:+ R ∧ c ∈ Py.chars letters ∧ x = L +:+ c +:+ R.
Proof.
  unfold inserts. rewrite list_elem_of_bind. split.
  - intros ([L R] & Hx & Hsp).
    apply list_elem_of_bind in Hx as (c & Hx%list_elem_of_singleton & Hc).
    exists L, R, c. by rewrite (splits_app _ _ _ Hsp).
  - intros (L & R & c & -> & Hc & ->). exists (L, R).
    split; [|apply splits_intro].
    apply list_elem_of_bind. exists c. split; [by left|done].
Qed.

Lemma elem_of_one_edits x word :
  x ∈ one_edits word ↔
  x ∈ deletes word ∨ x ∈ transposes_list word
  ∨ x ∈ replaces word ∨ x ∈ inserts word.
Proof. unfold one_edits. by rewrite !elem_of_app. Qed.

(** ** The code's candidates are the specification's *)

Lemma slice_app L R :
  Py.slice_to (String.length L) (L +:+ R) = L
  ∧ Py.slice_from (String.length L) (L +:+ R) = R.
Proof.
  induction L as [|c L [IH1 IH2]]; [by destruct R|].
  rewrite app_String. simpl. by rewrite IH1.
Qed.

Lemma elem_of_oneEdit x word :
  x ∈ Spec.oneEdit word ↔
  ∃ L R, word = L +:+ R
         ∧ (x ∈ Spec.delete L R ∨ x ∈ Spec.transpose L R
            ∨ x ∈ Spec.replace L R ∨ x ∈ Spec.insert L R).
Proof.
  unfold Spec.oneEdit. rewrite elem_of_union_list. split.
  - intros (X & (i & -> & Hi)%list_elem_of_fmap & Hx).
    exists (Py.slice_to i word), (Py.slice_from i word).
    split; [by rewrite slice_to_from|].
    unfold Spec.edits_at in Hx. cbv zeta in Hx.
    rewrite !elem_of_union in Hx. tauto.
  - intros (L & R & -> & Hx).
    exists (Spec.edits_at (L +:+ R) (String.length L)). split.
    + apply list_elem_of_fmap. eexists. split; [done|].
      apply elem_of_seq. rewrite length_app. lia.
    + unfold Spec.edits_at. cbv zeta.
      destruct (slice_app L R) as [-> ->].
      rewrite !elem_of_union. tauto.
Qed.

Lemma elem_of_spec_delete x L R :
  x ∈ Spec.delete L R ↔ ∃ c R1, R = String c R1 ∧ x = L +:+ R1.
Proof.
  destruct R as [|c R1]; simpl.
  - rewrite elem_of_empty. naive_solver.
  - rewrite elem_of_singleton. naive_solver.
Qed.

Lemma elem_of_spec_transpose x L R :
  x ∈ Spec.transpose L R ↔
  ∃ r0 r1 R2, R = String r0 (String r1 R2)
              ∧ x = L +:+ String r1 (String r0 R2).
Proof.
  destruct R as [|r0 [|r1 R2]]; simpl;
    rewrite ?elem_of_empty, ?elem_of_singleton; naive_solver.
Qed.

Lemma elem_of_spec_replace x L R :
  x ∈ Spec.replace L R ↔
  ∃ r0 R1 c, R = String r0 R1 ∧ c ∈ Spec.alphabet ∧ x = L +:+ c +:+ R1.
Proof.
  destruct R as [|r0 R1]; cbn [Spec.replace].
  - rewrite elem_of_empty. naive_solver.
  - rewrite elem_of_list_to_set, list_elem_of_fmap. naive_solver.
Qed.

Lemma elem_of_spec_insert x L R :
  x ∈ Spec.insert L R ↔ ∃ c, c ∈ Spec.alphabet ∧ x = L +:+ c +:+ R.
Proof.
  unfold Spec.insert. rewrite elem_of_list_to_set, list_elem_of_fmap.
  naive_solver.
Qed.

Lemma one_edits_oneEdit word : list_to_set (one_edits word) = Spec.oneEdit word.
Proof.
  apply leibniz_equiv. intros x.
  rewrite elem_of_list_to_set, elem_of_one_edits, elem_of_oneEdit.
  rewrite elem_of_deletes, elem_of_transposes_list, elem_of_replaces,
    elem_of_inserts, letters_alphabet.
  setoid_rewrite elem_of_spec_delete.
  setoid_rewrite elem_of_spec_transpose.
  setoid_rewrite elem_of_spec_replace.
  setoid_rewrite elem_of_spec_insert.
  naive_solver.
Qed.

(** C1. For every word [w] and either value of the flag, [edit_one_letter]
    returns the union, over every split position [i] in [[0, len(w)]], of
    the four edit families at [(w[:i], w[i:])]: the delete (when the right
    part is not empty), the transpose (when it has two characters or more),
    the replaces by every letter of ['a'..'z'] (when it is not empty) and
    the inserts of every letter; as a set, so a candidate produced more than
    once is there once. *)
Theorem edit_one_letter_is_oneEdit (w : string) (allow_switches : bool) :
  edit_one_letter w allow_switches = Ok (Spec.oneEdit w).
Proof. rewrite edit_one_letter_ok. f_equal. apply one_edits_oneEdit. Qed.

(** ** Two passes *)

Lemma elem_of_two_edits x word :
  x ∈ two_edits word ↔ ∃ e1, e1 ∈ one_edits word ∧ x ∈ one_edits e1.
Proof. unfold two_edits. rewrite list_elem_of_bind. naive_solver. Qed.

Section TwoPasses.

Variable iter : gset string → list string.

(** [edit_two_letters] returns, whatever the iteration order. *)
Lemma edit_two_letters_returns word allow_switches :
  edit_two_letters iter word allow_switches =
  Ok (list_to_set
        (mjoin ((λ e1, iter (list_to_set (one_edits e1)))
                   <$> iter (list_to_set (one_edits word))))).
Proof.
  unfold edit_two_letters. rewrite edit_one_letter_ok. cbn [mbind result_bind].
  rewrite (comprehension_ok _ (λ e1, iter (list_to_set (one_edits e1)))).
  - reflexivity.
  - intros e1 _. by rewrite edit_one_letter_ok.
Qed.

Hypothesis iter_elements : ∀ X : gset string, iter X ≡ₚ elements X.

Lemma elem_of_iter x (X : gset string) : x ∈ iter X ↔ x ∈ X.
Proof. by rewrite iter_elements, elem_of_elements. Qed.

(** The set it returns does not depend on the iteration order. *)
Lemma edit_two_letters_ok word allow_switches :
  edit_two_letters iter word allow_switches =
  Ok (list_to_set (two_edits word)).
Proof.
  rewrite edit_two_letters_returns. f_equal.
  apply leibniz_equiv. intros x.
  rewrite !elem_of_list_to_set, elem_of_two_edits, list_elem_of_join.
  setoid_rewrite list_elem_of_fmap. split.
  - intros (l & Hx & e1 & -> & He1).
    exists e1. by rewrite !elem_of_iter, !elem_of_list_to_set in *.
  - intros (e1 & He1 & Hx).
    exists (iter (list_to_set (one_edits e1))). split.
    + by rewrite elem_of_iter, elem_of_list_to_set.
    + exists e1. by rewrite elem_of_iter, elem_of_list_to_set.
Qed.

End TwoPasses.

(** ** Sorting *)

Section Sorting.

Context {A : Type} (key : A → Q).

Lemma insert_reverse_perm x l : insert_reverse key x l ≡ₚ x :: l.
Proof.
  induction l as [|y l IH]; [done|]. simpl.
  destruct (Qle_bool (key y) (key x)); [done|].
  rewrite IH. apply Permutation_swap.
Qed.

Lemma sorted_reverse_perm l : sorted_reverse key l ≡ₚ l.
Proof.
  induction l as [|x l IH]; [done|].
  unfold sorted_reverse in *. simpl. by rewrite insert_reverse_perm, IH.
Qed.

Lemma insert_reverse_sorted x l :
  StronglySorted (decreasing key) l →
  StronglySorted (decreasing key) (insert_reverse key x l).
Proof.
  induction 1 as [|y l Hl IH Hy]; simpl.
  { repeat constructor. }
  destruct (Qle_bool (key y) (key x)) eqn:Hle.
  - apply Qle_bool_iff in Hle.
    constructor; [by constructor|]. constructor; [done|].
    eapply Forall_impl; [exact Hy|]. intros z Hz. unfold decreasing in *.
    by eapply Qle_trans.
  - constructor; [done|].
    rewrite insert_reverse_perm. constructor; [|done].
    unfold decreasing. apply Qlt_le_weak, Qnot_le_lt.
    intros Hle'%Qle_bool_iff. congruence.
Qed.

Lemma sorted_reverse_sorted l :
  StronglySorted (decreasing key) (sorted_reverse key l).
Proof.
  induction l as [|x l IH]; [constructor|].
  by apply insert_reverse_sorted.
Qed.

Lemma StronglySorted_lookup (R : A → A → Prop) l i j x y :
  StronglySorted R l → i < j → l !! i = Some x → l !! j = Some y → R x y.
Proof.
  intros Hl. revert i j. induction Hl as [|z l Hl IH Hz]; intros i j Hij.
  { by intros [=]. }
  destruct i as [|i], j as [|j]; try lia; simpl.
  - intros [= ->] Hy. rewrite Forall_forall in Hz.
    apply Hz. by eapply list_elem_of_lookup_2.
  - apply IH. lia.
Qed.

Lemma sorted_reverse_lookup l i j x y :
  i < j →
  sorted_reverse key l !! i = Some x →
  sorted_reverse key l !! j = Some y →
  (key y <= key x)%Q.
Proof.
  intros Hij Hx Hy.
  exact (StronglySorted_lookup (decreasing key) _ i j x y
           (sorted_reverse_sorted l) Hij Hx Hy).
Qed.

End Sorting.

(** ** Lengths of the candidates *)

Lemma one_edits_length x word :
  x ∈ one_edits word →
  String.length x + 1 = String.length word
  ∨ String.length x = String.length word
  ∨ String.length x = String.length word + 1.
Proof.
  rewrite elem_of_one_edits, elem_of_deletes, elem_of_transposes_list,
    elem_of_replaces, elem_of_inserts, letters_alphabet.
  intros [(L & c & R & -> & ->)
         |[(L & r0 & r1 & R & -> & ->)
          |[(L & r0 & R & c & -> & Hc%length_alphabet & ->)
           |(L & R & c & -> & Hc%length_alphabet & ->)]]];
    rewrite !length_app; simpl; lia.
Qed.

Lemma two_edits_length x word :
  x ∈ two_edits word →
  String.length word ≤ String.length x + 2
  ∧ String.length x ≤ String.length word + 2.
Proof.
  intros (e1 & He1%one_edits_length & Hx%one_edits_length)%elem_of_two_edits.
  lia.
Qed.

(** ** Claims about the two candidate generators *)

Section Generators.

Variable iter : gset string → list string.
Hypothesis iter_elements : ∀ X : gset string, iter X ≡ₚ elements X.

(** C2. For every word [w], [edit_two_letters] returns exactly the union,
    over every [w1] in the one-edit set of [w], of the one-edit set of
    [w1]: a string is in the result if and only if it is in the one-edit
    set of some member of the one-edit set of [w]. Nothing else is added,
    the one-edit set of [w] in particular. *)
Theorem edit_two_letters_is_union (w : string) (allow_switches : bool) :
  ∃ e1s e2s,
    edit_one_letter w allow_switches = Ok e1s
    ∧ edit_two_letters iter w allow_switches = Ok e2s
    ∧ ∀ x, x ∈ e2s ↔
           ∃ w1 s, w1 ∈ e1s
                   ∧ edit_one_letter w1 allow_switches = Ok s ∧ x ∈ s.
Proof.
  exists (list_to_set (one_edits w)), (list_to_set (two_edits w)).
  split; [apply edit_one_letter_ok|].
  split; [by apply edit_two_letters_ok|].
  intros x. rewrite elem_of_list_to_set, elem_of_two_edits. split.
  - intros (w1 & Hw1 & Hx). exists w1, (list_to_set (one_edits w1)).
    rewrite !elem_of_list_to_set. by rewrite edit_one_letter_ok.
  - intros (w1 & s & Hw1 & Hs & Hx). exists w1.
    rewrite edit_one_letter_ok in Hs. injection Hs as <-.
    by rewrite !elem_of_list_to_set in *.
Qed.

(** C10. Every member of the one-edit set of [w] is one character shorter
    than [w], as long as [w], or one character longer; every member of the
    two-edit set of [w] has a length that differs from that of [w] by two
    at most. *)
Theorem edit_lengths (w : string) (allow_switches : bool) :
  ∃ e1s e2s,
    edit_one_letter w allow_switches = Ok e1s
    ∧ edit_two_letters iter w allow_switches = Ok e2s
    ∧ (∀ x, x ∈ e1s →
            String.length x + 1 = String.length w
            ∨ String.length x = String.length w
            ∨ String.length x = String.length w + 1)
    ∧ (∀ x, x ∈ e2s →
            String.length w ≤ String.length x + 2
            ∧ String.length x ≤ String.length w + 2).
Proof.
  exists (list_to_set (one_edits w)), (list_to_set (two_edits w)).
  split; [apply edit_one_letter_ok|].
  split; [by apply edit_two_letters_ok|].
  split; intros x Hx%elem_of_list_to_set.
  - by apply one_edits_length.
  - by apply two_edits_length.
Qed.

End Generators.

(** C9. The flag [allow_switches] changes nothing: [edit_one_letter] and
    [edit_two_letters] return the same for [True] and for [False], and the
    transposition of two adjacent characters of the word is among the
    candidates for either value of the flag. *)
Theorem allow_switches_ignored (iter : gset string → list string) (w : string) :
  edit_one_letter w true = edit_one_letter w false
  ∧ edit_two_letters iter w true = edit_two_letters iter w false
  ∧ ∀ (allow_switches : bool) L r0 r1 R,
      w = L +:+ String r0 (String r1 R) →
      ∃ e1s, edit_one_letter w allow_switches = Ok e1s
             ∧ L +:+ String r1 (String r0 R) ∈ e1s.
Proof.
  split; [reflexivity|]. split; [reflexivity|].
  intros b L r0 r1 R ->. eexists. split; [apply edit_one_letter_ok|].
  rewrite elem_of_list_to_set, elem_of_one_edits, elem_of_transposes_list.
  right; left. by exists L, r0, r1, R.
Qed.

(** C8. On the empty string [edit_one_letter] returns exactly 26 results,
    the 26 one-letter strings that the insertion at the only split point
    produces; the delete, transpose and replace families are empty. *)
Theorem edit_one_letter_empty (allow_switches : bool) :
  ∃ e1s,
    edit_one_letter EmptyString allow_switches = Ok e1s
    ∧ size e1s = 26
    ∧ splits EmptyString = [(EmptyString, EmptyString)]
    ∧ e1s = list_to_set (inserts EmptyString)
    ∧ inserts EmptyString = Py.chars letters
    ∧ (∀ x, x ∈ e1s → String.length x = 1)
    ∧ deletes EmptyString = []
    ∧ transposes EmptyString = Ok []
    ∧ replaces EmptyString = [].
Proof.
  exists (list_to_set (one_edits EmptyString)).
  split; [apply edit_one_letter_ok|].
  split; [by vm_compute|].
  repeat (split; [reflexivity|]).
  split; [|done].
  intros x Hx%elem_of_list_to_set. apply length_alphabet.
  by rewrite <-letters_alphabet.
Qed.

(** ** Words and the alphabet *)

Lemma elem_of_chars c w :
  c ∈ Py.chars w ↔
  ∃ L a R, c = String a EmptyString ∧ w = L +:+ String a R.
Proof.
  induction w as [|b w IH]; simpl.
  - split; [by intros ?%elem_of_nil|]. by intros ([|b L] & a & R & _ & ?).
  - rewrite elem_of_cons, IH. split.
    + intros [->|(L & a & R & -> & ->)].
      * by exists EmptyString, b, w.
      * by exists (String b L), a, R.
    + intros ([|b' L] & a & R & -> & Hw).
      * left. rewrite app_empty_l in Hw. by injection Hw as -> _.
      * right. rewrite app_String in Hw. injection Hw as -> ->.
        by exists L, a, R.
Qed.

Lemma over_alphabet_has_letter w :
  w ≠ EmptyString → over_alphabet w → has_letter w.
Proof.
  destruct w as [|a w]; [done|]. intros _ Hw.
  exists (String a EmptyString). split; [by left|]. apply Hw. by left.
Qed.

(** A word with a letter is among its own candidates: replacing that letter
    by itself gives the word back. *)
Lemma one_edits_self w : has_letter w → w ∈ one_edits w.
Proof.
  intros (c & (L & a & R & -> & ->)%elem_of_chars & Hc).
  rewrite elem_of_one_edits, elem_of_replaces. do 2 right; left.
  by exists L, a, R, (String a EmptyString).
Qed.

(** Every word is among its candidates of two passes: insert a letter in
    front, then delete it. *)
Lemma two_edits_self w : w ∈ two_edits w.
Proof.
  apply elem_of_two_edits. exists (String "a"%char w). split.
  - rewrite elem_of_one_edits, elem_of_inserts. do 3 right.
    exists EmptyString, w, (String "a"%char EmptyString).
    split_and!; [done| |done]. by left.
  - rewrite elem_of_one_edits, elem_of_deletes. left.
    by exists EmptyString, "a"%char, w.
Qed.

(** Over the alphabet the second pass gives every candidate of the first
    again. *)
Lemma one_edits_two_edits_alphabet w x :
  over_alphabet w → x ∈ one_edits w → x ∈ two_edits w.
Proof.
  intros Hw Hx. apply elem_of_two_edits. destruct w as [|a w].
  - exists x. split; [done|]. apply one_edits_self.
    exists x. split; [|done].
    apply list_elem_of_In in Hx. cbv in Hx.
    repeat (destruct Hx as [<-|Hx]; [by left|]). done.
  - exists (String a w). split; [|done].
    by apply one_edits_self, over_alphabet_has_letter.
Qed.

(** ** Ranking *)

Section Ranking.

Variable iter : gset string → list string.

Lemma get_corrections_returns word probs vocab :
  ∃ e2s,
    edit_two_letters iter word true = Ok e2s
    ∧ get_corrections iter word probs vocab =
      Ok (sorted_reverse snd (scored probs <$> iter (e2s ∩ vocab))).
Proof.
  eexists. split; [apply edit_two_letters_returns|].
  unfold get_corrections. by rewrite edit_two_letters_returns.
Qed.

(** C3. The ranked output of [get_corrections] is in non-increasing order of
    probability: for all positions [i < j] of the returned list, the
    probability at [i] is greater than or equal to the probability at
    [j]; and the call returns for every word, vocabulary and table. *)
Theorem get_corrections_sorted
    (word : string) (probs : gmap string Q) (vocab : gset string) :
  ∃ out,
    get_corrections iter word probs vocab = Ok out
    ∧ ∀ i j s p t q,
        i < j → out !! i = Some (s, p) → out !! j = Some (t, q) →
        (q <= p)%Q.
Proof.
  destruct (get_corrections_returns word probs vocab) as (e2s & _ & ->).
  eexists. split; [reflexivity|].
  intros i j s p t q Hij Hi Hj.
  exact (sorted_reverse_lookup snd _ i j (s, p) (t, q) Hij Hi Hj).
Qed.

Hypothesis iter_elements : ∀ X : gset string, iter X ≡ₚ elements X.

Lemma get_corrections_ok word probs vocab :
  ∃ out,
    get_corrections iter word probs vocab = Ok out
    ∧ ∀ s p, (s, p) ∈ out ↔
             s ∈ two_edits word ∧ s ∈ vocab ∧ p = dict_get probs s 0%Q.
Proof.
  destruct (get_corrections_returns word probs vocab) as (e2s & He2s & ->).
  rewrite edit_two_letters_ok in He2s by done. injection He2s as <-.
  eexists. split; [reflexivity|]. intros s p.
  rewrite sorted_reverse_perm, list_elem_of_fmap. unfold scored.
  setoid_rewrite (elem_of_iter iter iter_elements).
  setoid_rewrite elem_of_intersection.
  setoid_rewrite elem_of_list_to_set. naive_solver.
Qed.

(** When every word of the vocabulary is a candidate, the suggestions are
    the whole vocabulary, ranked. *)
Lemma get_corrections_within word probs vocab :
  (∀ s, s ∈ vocab → s ∈ two_edits word) →
  get_corrections iter word probs vocab =
  Ok (sorted_reverse snd (scored probs <$> iter vocab)).
Proof.
  intros Hvocab.
  destruct (get_corrections_returns word probs vocab) as (e2s & He2s & ->).
  rewrite edit_two_letters_ok in He2s by done. injection He2s as <-.
  assert (list_to_set (two_edits word) ∩ vocab = vocab) as Hvalid.
  { apply leibniz_equiv. intros x.
    rewrite elem_of_intersection, elem_of_list_to_set. naive_solver. }
  by rewrite Hvalid.
Qed.


End Ranking.

(** ** Concrete candidates *)


Lemma one_edits_A_A : "A" ∉ one_edits "A".
Proof. apply (bool_decide_unpack _). by vm_compute. Qed.

Lemma one_edits_AB_BA : "BA" ∈ one_edits "AB".
Proof. apply (bool_decide_unpack _). by vm_compute. Qed.

Lemma two_edits_AB_BA : "BA" ∉ two_edits "AB".
Proof. apply (bool_decide_unpack _). by vm_compute. Qed.

Lemma two_edits_empty_ab : "ab" ∈ two_edits EmptyString.
Proof. apply (bool_decide_unpack _). by vm_compute. Qed.


Lemma outside_alphabet_AB : outside_alphabet "AB".
Proof.
  exists "A". split; [by left|]. apply (bool_decide_unpack _). by vm_compute.
Qed.

(** A word that is not over the alphabet has a character outside it. *)
Lemma not_over_alphabet_outside w : ¬ over_alphabet w → outside_alphabet w.
Proof.
  unfold over_alphabet, outside_alphabet.
  induction (Py.chars w) as [|c l IH]; intros Hnot.
  - destruct Hnot. by intros c ?%elem_of_nil.
  - destruct (decide (c ∈ Py.chars letters)) as [Hc|Hc].
    + destruct IH as (d & Hd & Hout).
      * intros Hl. apply Hnot. intros d [->|Hd]%elem_of_cons; eauto.
      * exists d. split; [by right|done].
    + exists c. split; [by left|done].
Qed.

(** ** Claims about [get_corrections] *)

Section Corrections.

Variable iter : gset string → list string.
Hypothesis iter_elements : ∀ X : gset string, iter X ≡ₚ elements X.

(** C4. Every candidate that survives the filtering and is absent from the
    probability table is paired with probability 0 in the output of
    [get_corrections], and with no other probability; the missing key
    raises nothing: the call returns. *)
Theorem get_corrections_missing_key
    (word : string) (probs : gmap string Q) (vocab : gset string) :
  ∃ e2s out,
    edit_two_letters iter word true = Ok e2s
    ∧ get_corrections iter word probs vocab = Ok out
    ∧ ∀ s, s ∈ e2s ∩ vocab → probs !! s = None →
           (s, 0%Q) ∈ out ∧ ∀ p, (s, p) ∈ out → p = 0%Q.
Proof.
  destruct (get_corrections_ok iter iter_elements word probs vocab)
    as (out & Hout & Hmem).
  exists (list_to_set (two_edits word)), out.
  split; [by apply edit_two_letters_ok|]. split; [done|].
  intros s [Hs%elem_of_list_to_set Hv]%elem_of_intersection Hnone.
  assert (dict_get probs s 0%Q = 0%Q) as Hget
    by (unfold dict_get; by rewrite Hnone).
  split.
  - apply Hmem. by rewrite Hget.
  - intros p (_ & _ & ->)%Hmem. done.
Qed.


(** C6, as the code has it. For every word over ['a'..'z'] the two-edit
    set contains the one-edit set, although it is built by composing
    one-edit outputs only and the one-edit set is not unioned in: the
    second pass produces every candidate of the first again. The inclusion
    fails only on input with characters outside the alphabet, as on
    ["AB"], whose candidate ["BA"] is not in its two-edit set. *)
Theorem two_edit_set_superset_on_words :
  (∀ w, over_alphabet w →
        ∃ e1s e2s,
          edit_one_letter w true = Ok e1s
          ∧ edit_two_letters iter w true = Ok e2s
          ∧ ∀ x, x ∈ e1s → x ∈ e2s)
  ∧ (∀ w x e1s e2s,
       edit_one_letter w true = Ok e1s →
       edit_two_letters iter w true = Ok e2s →
       x ∈ e1s → x ∉ e2s → outside_alphabet w)
  ∧ (∃ w x e1s e2s,
       outside_alphabet w
       ∧ edit_one_letter w true = Ok e1s
       ∧ edit_two_letters iter w true = Ok e2s
       ∧ x ∈ e1s ∧ x ∉ e2s).
Proof.
  split; [|split].
  - intros w Hw.
    exists (list_to_set (one_edits w)), (list_to_set (two_edits w)).
    split; [apply edit_one_letter_ok|].
    split; [by apply edit_two_letters_ok|].
    intros x. rewrite !elem_of_list_to_set.
    by apply one_edits_two_edits_alphabet.
  - intros w x e1s e2s He1s He2s Hx Hnx.
    rewrite edit_one_letter_ok in He1s. injection He1s as <-.
    rewrite edit_two_letters_ok in He2s by done. injection He2s as <-.
    rewrite elem_of_list_to_set in Hx, Hnx.
    apply not_over_alphabet_outside. intros Hw.
    by apply Hnx, one_edits_two_edits_alphabet.
  - exists "AB", "BA", (list_to_set (one_edits "AB")),
      (list_to_set (two_edits "AB")).
    split; [apply outside_alphabet_AB|].
    split; [apply edit_one_letter_ok|].
    split; [by apply edit_two_letters_ok|].
    rewrite !elem_of_list_to_set.
    split; [apply one_edits_AB_BA|apply two_edits_AB_BA].
Qed.

(** X14. Over the alphabet the inclusion that C6 denies in general does
    hold: the two-edit set of a word over ['a'..'z'] contains its one-edit
    set. *)
Lemma one_edit_set_subset_alphabet (w : string) :
  over_alphabet w →
  ∃ e1s e2s,
    edit_one_letter w true = Ok e1s
    ∧ edit_two_letters iter w true = Ok e2s
    ∧ e1s ⊆ e2s.
Proof.
  intros Hw.
  exists (list_to_set (one_edits w)), (list_to_set (two_edits w)).
  split; [apply edit_one_letter_ok|].
  split; [by apply edit_two_letters_ok|].
  intros x. rewrite !elem_of_list_to_set.
  by apply one_edits_two_edits_alphabet.
Qed.

(** A string [w] that contains a letter of ['a'..'z'] is a member of its
    own one-edit set, by replacing that letter by itself; and then, if [w]
    is in the vocabulary, [w] is among the filtered words and in the ranked
    suggestions of [get_corrections], with [probs.get(w, 0)]. *)
Lemma word_with_letter_suggests_itself
    (w : string) (probs : gmap string Q) (vocab : gset string) :
  has_letter w →
  ∃ e1s e2s out,
    edit_one_letter w true = Ok e1s
    ∧ edit_two_letters iter w true = Ok e2s
    ∧ get_corrections iter w probs vocab = Ok out
    ∧ w ∈ e1s
    ∧ (w ∈ vocab → w ∈ e2s ∩ vocab ∧ (w, dict_get probs w 0%Q) ∈ out).
Proof.
  intros Hw.
  destruct (get_corrections_ok iter iter_elements w probs vocab)
    as (out & Hout & Hmem).
  exists (list_to_set (one_edits w)), (list_to_set (two_edits w)), out.
  split; [apply edit_one_letter_ok|].
  split; [by apply edit_two_letters_ok|]. split; [done|].
  rewrite elem_of_list_to_set. split; [by apply one_edits_self|].
  intros Hv. rewrite elem_of_intersection, elem_of_list_to_set, Hmem.
  pose proof (two_edits_self w). tauto.
Qed.

(** C7. Every non-empty word [w], a word being a sequence of letters of
    ['a'..'z'], is a member of its own one-edit set, by the replace that
    puts a letter in place of itself; consequently, if [w] is in the
    vocabulary, [w] is among the filtered words and in the ranked
    suggestions of [get_corrections], with [probs.get(w, 0)]. *)
Theorem nonempty_word_suggests_itself
    (w : string) (probs : gmap string Q) (vocab : gset string) :
  w ≠ EmptyString →
  over_alphabet w →
  ∃ e1s e2s out,
    edit_one_letter w true = Ok e1s
    ∧ edit_two_letters iter w true = Ok e2s
    ∧ get_corrections iter w probs vocab = Ok out
    ∧ w ∈ e1s
    ∧ (w ∈ vocab → w ∈ e2s ∩ vocab ∧ (w, dict_get probs w 0%Q) ∈ out).
Proof.
  intros Hne Hw. apply word_with_letter_suggests_itself.
  by apply over_alphabet_has_letter.
Qed.

End Corrections.

(** ** The claims at concrete inputs *)

Lemma Ok_inj {A : Type} (a b : A) : Ok a = Ok b → a = b.
Proof. by intros [=]. Qed.

(** The order of [elements] is one iteration order. *)
Lemma elements_order (X : gset string) : elements X ≡ₚ elements X.
Proof. reflexivity. Qed.

Lemma edit_two_letters_is_union_witness :
  ∃ e1s e2s,
    edit_one_letter "ab" true = Ok e1s
    ∧ edit_two_letters elements "ab" true = Ok e2s
    ∧ ∀ x, x ∈ e2s ↔
           ∃ w1 s, w1 ∈ e1s ∧ edit_one_letter w1 true = Ok s ∧ x ∈ s.
Proof. exact (edit_two_letters_is_union elements elements_order "ab" true). Defined.

Lemma edit_lengths_witness :
  ∃ e1s e2s,
    edit_one_letter "ab" true = Ok e1s
    ∧ edit_two_letters elements "ab" true = Ok e2s
    ∧ (∀ x, x ∈ e1s →
            String.length x + 1 = 2 ∨ String.length x = 2
            ∨ String.length x = 3)
    ∧ (∀ x, x ∈ e2s → 2 ≤ String.length x + 2 ∧ String.length x ≤ 4).
Proof. exact (edit_lengths elements elements_order "ab" true). Defined.

Lemma allow_switches_ignored_witness :
  ∃ e1s, edit_one_letter "ab" false = Ok e1s ∧ "ba" ∈ e1s.
Proof.
  destruct (allow_switches_ignored elements "ab") as (_ & _ & Hswap).
  exact (Hswap false EmptyString "a"%char "b"%char EmptyString eq_refl).
Defined.

Lemma edit_one_letter_empty_witness :
  ∃ e1s, edit_one_letter EmptyString true = Ok e1s
         ∧ size e1s = 26 ∧ "q" ∈ e1s ∧ String.length "q" = 1.
Proof.
  destruct (edit_one_letter_empty true)
    as (e1s & He1s & Hsize & _ & Hset & _ & Hlen & _).
  exists e1s. split; [done|]. split; [done|].
  assert ("q" ∈ e1s) as Hq.
  { rewrite Hset, elem_of_list_to_set.
    apply (bool_decide_unpack _). by vm_compute. }
  split; [done|]. by apply Hlen.
Defined.

Lemma example_vocab_candidates s :
  s ∈ example_vocab → s ∈ two_edits EmptyString.
Proof.
  unfold example_vocab. rewrite !elem_of_union, !elem_of_singleton.
  intros [[-> | ->] | ->]; apply (bool_decide_unpack _); by vm_compute.
Qed.

Lemma get_corrections_example :
  get_corrections elements EmptyString example_probs example_vocab =
  Ok [("a", (1 # 2)%Q); ("b", (1 # 4)%Q); ("ab", 0%Q)].
Proof.
  rewrite (get_corrections_within elements elements_order EmptyString
             example_probs example_vocab example_vocab_candidates).
  by vm_compute.
Qed.

Lemma get_corrections_sorted_witness :
  ∃ out,
    get_corrections elements EmptyString example_probs example_vocab = Ok out
    ∧ out !! 0 = Some ("a", (1 # 2)%Q)
    ∧ out !! 2 = Some ("ab", 0%Q)
    ∧ (0 <= 1 # 2)%Q.
Proof.
  destruct (get_corrections_sorted elements EmptyString example_probs
              example_vocab) as (out & Hout & Hsorted).
  exists out. split; [exact Hout|].
  assert (out = [("a", (1 # 2)%Q); ("b", (1 # 4)%Q); ("ab", 0%Q)]) as Heq.
  { clear Hsorted. rewrite get_corrections_example in Hout.
    injection Hout as <-. reflexivity. }
  clear Hout.
  assert (out !! 0 = Some ("a", (1 # 2)%Q)) as H0
    by (rewrite Heq; reflexivity).
  assert (out !! 2 = Some ("ab", 0%Q)) as H2
    by (rewrite Heq; reflexivity).
  split; [exact H0|]. split; [exact H2|].
  apply (Hsorted 0 2 "a" (1 # 2)%Q "ab" 0%Q); [lia|exact H0|exact H2].
Defined.

Lemma get_corrections_missing_key_witness :
  ∃ out,
    get_corrections elements EmptyString example_probs example_vocab = Ok out
    ∧ ("ab", 0%Q) ∈ out.
Proof.
  destruct (get_corrections_missing_key elements elements_order EmptyString
              example_probs example_vocab) as (e2s & out & He2s & Hout & Hzero).
  exists out. split; [exact Hout|]. apply Hzero.
  - rewrite edit_two_letters_ok in He2s by apply elements_order.
    apply Ok_inj in He2s. rewrite <-He2s.
    rewrite elem_of_intersection, elem_of_list_to_set.
    split; [apply two_edits_empty_ab|].
    apply (bool_decide_unpack _). by vm_compute.
  - by vm_compute.
Defined.



(** Outside the alphabet a string need not be its own candidate: ["A"] is
    not a member of its one-edit set. *)
Lemma uppercase_word_not_own_candidate :
  "A" ≠ EmptyString
  ∧ ∃ e1s, edit_one_letter "A" true = Ok e1s ∧ "A" ∉ e1s.
Proof.
  split; [done|]. exists (list_to_set (one_edits "A")).
  split; [apply edit_one_letter_ok|].
  rewrite elem_of_list_to_set. apply one_edits_A_A.
Qed.

(** ** The candidates of a word, by recursion on the word *)

Lemma splits_empty : splits EmptyString = [(EmptyString, EmptyString)].
Proof. reflexivity. Qed.

Lemma splits_shift c w j n :
  seq (S j) n
    ≫= (λ i, [(Py.slice_to i (String c w), Py.slice_from i (String c w))]) =
  (λ '(L, R), (String c L, R))
    <$> (seq j n ≫= λ i, [(Py.slice_to i w, Py.slice_from i w)]).
Proof.
  revert j. induction n as [|n IH]; intros j; [reflexivity|].
  cbn [seq]. rewrite !bind_cons, fmap_app, <-IH. reflexivity.
Qed.

Lemma splits_String c w :
  splits (String c w) =
  (EmptyString, String c w) :: ((λ '(L, R), (String c L, R)) <$> splits w).
Proof.
  unfold splits, Py.range, Py.len. cbn [String.length].
  rewrite !Nat.add_1_r.
  rewrite <-(splits_shift c w 0 (S (String.length w))). reflexivity.
Qed.

Lemma fmap_bind {A B C : Type} (h : B → C) (f : A → list B) l :
  h <$> (l ≫= f) = l ≫= (λ x, h <$> f x).
Proof.
  induction l as [|x l IH]; [reflexivity|].
  by rewrite !bind_cons, fmap_app, IH.
Qed.

(** A comprehension over the splits of [c + w] that are not the first one
    is the comprehension over the splits of [w], with [c] put in front. *)
Lemma bind_splits_String c (f : string * string → list string) l :
  (∀ L R, f (String c L, R) = String c <$> f (L, R)) →
  ((λ '(L, R), (String c L, R)) <$> l) ≫= f = String c <$> (l ≫= f).
Proof.
  intros Hf. rewrite list_fmap_bind, fmap_bind.
  apply list_bind_ext; [|done]. intros [L R]. apply Hf.
Qed.

Lemma deletes_String c w :
  deletes (String c w) = w :: (String c <$> deletes w).
Proof.
  unfold deletes. rewrite splits_String, bind_cons. cbn [Py.truthy app].
  rewrite slice_from_1, app_empty_l. f_equal.
  apply bind_splits_String. intros L R. by destruct (Py.truthy R).
Qed.

Lemma transposes_list_String c w :
  transposes_list (String c w) =
  match w with
  | String d w' => [String d (String c w')]
  | EmptyString => []
  end ++ (String c <$> transposes_list w).
Proof.
  unfold transposes_list. rewrite splits_String, bind_cons. f_equal.
  apply bind_splits_String. intros L [|r0 [|r1 R]]; reflexivity.
Qed.

Lemma replaces_String c w :
  replaces (String c w) =
  ((λ x, x +:+ w) <$> Py.chars letters) ++ (String c <$> replaces w).
Proof.
  unfold replaces. rewrite splits_String, bind_cons. cbn [Py.truthy].
  rewrite slice_from_1. f_equal.
  apply bind_splits_String. intros L [|r0 R]; reflexivity.
Qed.

Lemma inserts_String c w :
  inserts (String c w) =
  ((λ x, x +:+ String c w) <$> Py.chars letters)
    ++ (String c <$> inserts w).
Proof.
  unfold inserts. rewrite splits_String, bind_cons. f_equal.
  apply bind_splits_String. intros L R. reflexivity.
Qed.

(** ** How many candidates *)

Lemma length_deletes w : length (deletes w) = String.length w.
Proof.
  induction w as [|c w IH]; [reflexivity|].
  rewrite deletes_String. cbn [length String.length].
  by rewrite length_fmap, IH.
Qed.

Lemma length_transposes_list w :
  length (transposes_list w) = Nat.pred (String.length w).
Proof.
  induction w as [|c w IH]; [reflexivity|].
  rewrite transposes_list_String, List.length_app, length_fmap, IH.
  by destruct w.
Qed.

Lemma length_replaces w : length (replaces w) = 26 * String.length w.
Proof.
  induction w as [|c w IH]; [reflexivity|].
  rewrite replaces_String, List.length_app, !length_fmap, IH.
  cbn [String.length]. change (length (Py.chars letters)) with 26. lia.
Qed.

Lemma length_inserts w : length (inserts w) = 26 * (String.length w + 1).
Proof.
  induction w as [|c w IH]; [reflexivity|].
  rewrite inserts_String, List.length_app, !length_fmap, IH.
  cbn [String.length]. change (length (Py.chars letters)) with 26. lia.
Qed.

Lemma length_one_edits w :
  length (one_edits w) =
  String.length w + Nat.pred (String.length w)
  + 26 * String.length w + 26 * (String.length w + 1).
Proof.
  unfold one_edits.
  rewrite !List.length_app, length_deletes, length_transposes_list,
    length_replaces, length_inserts. lia.
Qed.

Lemma size_list_to_set_le (l : list string) :
  size (list_to_set l : gset string) ≤ length l.
Proof.
  induction l as [|x l IH]; [by rewrite list_to_set_nil, size_empty|].
  rewrite list_to_set_cons, size_union_alt, size_singleton. cbn [length].
  assert (list_to_set l ∖ {[x]} ⊆ (list_to_set l : gset string)) as Hsub
    by set_solver.
  apply subseteq_size in Hsub. lia.
Qed.

Lemma NoDup_front_inserts w :
  NoDup ((λ x, x +:+ w) <$> Py.chars letters).
Proof.
  apply NoDup_fmap_2_strong.
  - intros x y Hx Hy Heq.
    apply elem_of_chars in Hx as (_ & a & _ & -> & _).
    apply elem_of_chars in Hy as (_ & b & _ & -> & _).
    rewrite !app_String, !app_empty_l in Heq. by injection Heq as ->.
  - apply (bool_decide_unpack _). by vm_compute.
Qed.

Lemma front_inserts_subseteq w x :
  x ∈ (λ x, x +:+ w) <$> Py.chars letters → x ∈ one_edits w.
Proof.
  intros (c & -> & Hc)%list_elem_of_fmap.
  rewrite elem_of_one_edits, elem_of_inserts. do 3 right.
  by exists EmptyString, w, c.
Qed.

(** ** Candidates and the alphabet *)

Lemma chars_app L R : Py.chars (L +:+ R) = Py.chars L ++ Py.chars R.
Proof.
  induction L as [|c L IH]; [reflexivity|].
  rewrite app_String. cbn [Py.chars app]. by rewrite IH.
Qed.

Lemma chars_letter c s : c ∈ Py.chars s → Py.chars c = [c].
Proof. by intros (_ & a & _ & -> & _)%elem_of_chars. Qed.

Lemma over_alphabet_app L R :
  over_alphabet (L +:+ R) ↔ over_alphabet L ∧ over_alphabet R.
Proof.
  unfold over_alphabet. setoid_rewrite chars_app.
  setoid_rewrite elem_of_app. naive_solver.
Qed.

Lemma over_alphabet_String a R :
  over_alphabet (String a R) ↔
  String a EmptyString ∈ Py.chars letters ∧ over_alphabet R.
Proof.
  unfold over_alphabet. cbn [Py.chars]. setoid_rewrite elem_of_cons.
  naive_solver.
Qed.

Lemma over_alphabet_letter c : c ∈ Py.chars letters → over_alphabet c.
Proof.
  intros Hc x. rewrite (chars_letter c letters Hc).
  by intros ->%list_elem_of_singleton.
Qed.

(** The candidates of a word over the alphabet are over the alphabet. *)
Lemma one_edits_over_alphabet w x :
  over_alphabet w → x ∈ one_edits w → over_alphabet x.
Proof.
  rewrite elem_of_one_edits, elem_of_deletes, elem_of_transposes_list,
    elem_of_replaces, elem_of_inserts.
  intros Hw [(L & c & R & -> & ->)
            |[(L & r0 & r1 & R & -> & ->)
             |[(L & r0 & R & c & -> & Hc & ->)
              |(L & R & c & -> & Hc & ->)]]];
    try pose proof (over_alphabet_letter c) as Hletter;
    rewrite ?over_alphabet_app, ?over_alphabet_String in *; naive_solver.
Qed.

Lemma two_edits_over_alphabet w x :
  over_alphabet w → x ∈ two_edits w → over_alphabet x.
Proof.
  intros Hw (e1 & He1 & Hx)%elem_of_two_edits.
  eauto using one_edits_over_alphabet.
Qed.

(** An edit of a word over the alphabet can be undone by one edit. *)
Lemma one_edits_sym w x :
  over_alphabet w → x ∈ one_edits w → w ∈ one_edits x.
Proof.
  rewrite !elem_of_one_edits, !elem_of_deletes, !elem_of_transposes_list,
    !elem_of_replaces, !elem_of_inserts.
  intros Hw [(L & c & R & -> & ->)
            |[(L & r0 & r1 & R & -> & ->)
             |[(L & r0 & R & c & -> & Hc & ->)
              |(L & R & c & -> & Hc & ->)]]].
  - do 3 right. exists L, R, (String c EmptyString).
    apply over_alphabet_app in Hw as [_ [Hc _]%over_alphabet_String].
    done.
  - right; left. by exists L, r1, r0, R.
  - do 2 right; left.
    apply over_alphabet_app in Hw as [_ [Hr0 _]%over_alphabet_String].
    apply elem_of_chars in Hc as (_ & a & _ & -> & _).
    by exists L, a, R, (String r0 EmptyString).
  - left. apply elem_of_chars in Hc as (_ & a & _ & -> & _).
    by exists L, a, R.
Qed.

Lemma two_edits_sym w x :
  over_alphabet w → x ∈ two_edits w → w ∈ two_edits x.
Proof.
  intros Hw (e1 & He1 & Hx)%elem_of_two_edits.
  apply elem_of_two_edits. exists e1. split.
  - apply one_edits_sym; [|done]. eauto using one_edits_over_alphabet.
  - by apply one_edits_sym.
Qed.

(** Inserting a letter is undone by a delete and a transposition by a
    transposition, on every word. *)
Lemma inserts_deletes w x : x ∈ inserts w → w ∈ deletes x.
Proof.
  rewrite elem_of_inserts, elem_of_deletes.
  intros (L & R & c & -> & Hc & ->).
  apply elem_of_chars in Hc as (_ & a & _ & -> & _). by exists L, a, R.
Qed.

Lemma transposes_list_sym w x :
  x ∈ transposes_list w → w ∈ transposes_list x.
Proof.
  rewrite !elem_of_transposes_list.
  intros (L & r0 & r1 & R & -> & ->). by exists L, r1, r0, R.
Qed.

(** ** The sort keeps ties in place *)

Section Stable.

Context {A : Type} (key : A → Q) (k : Q).

Lemma filter_insert_reverse x l :
  List.filter (has_key key k) (insert_reverse key x l) = List.filter (has_key key k) (x :: l).
Proof.
  induction l as [|y l IH]; [reflexivity|]. cbn [insert_reverse].
  destruct (Qle_bool (key y) (key x)) eqn:Hle; [reflexivity|].
  cbn [List.filter] in *. rewrite IH.
  destruct (has_key key k x) eqn:Hx, (has_key key k y) eqn:Hy; try reflexivity.
  unfold has_key in *. apply Qeq_bool_iff in Hx, Hy.
  assert (Qle_bool (key y) (key x) = true) as Hle'; [|congruence].
  apply Qle_bool_iff. rewrite Hx, Hy. apply Qle_refl.
Qed.

Lemma filter_sorted_reverse l :
  List.filter (has_key key k) (sorted_reverse key l) = List.filter (has_key key k) l.
Proof.
  induction l as [|x l IH]; [reflexivity|].
  unfold sorted_reverse in *. cbn [foldr].
  rewrite filter_insert_reverse. cbn [List.filter]. by rewrite IH.
Qed.

End Stable.

Lemma length_bind_le {A B : Type} (f : A → list B) (l : list A) (n : nat) :
  (∀ x, x ∈ l → length (f x) ≤ n) → length (l ≫= f) ≤ length l * n.
Proof.
  induction l as [|x l IH]; intros Hf; [reflexivity|].
  rewrite bind_cons, List.length_app. cbn [length].
  pose proof (Hf x ltac:(left)).
  pose proof (IH ltac:(intros; apply Hf; by right)). lia.
Qed.

Lemma length_two_edits w :
  length (two_edits w)
  ≤ (54 * String.length w + 26) * (54 * String.length w + 80).
Proof.
  unfold two_edits.
  etrans; [apply (length_bind_le _ _ (54 * String.length w + 80))|].
  - intros x Hx%one_edits_length. rewrite length_one_edits. lia.
  - rewrite length_one_edits. apply Nat.mul_le_mono_r. lia.
Qed.

(** ** More about [edit_one_letter] and [edit_two_letters] *)

(** X1. A string is a candidate of [edit_one_letter] exactly when it comes
    from the word by deleting one character, by swapping two adjacent
    characters, by replacing one character by a letter of ['a'..'z'], or by
    inserting a letter of ['a'..'z'] anywhere. *)
Theorem edit_one_letter_edits (w : string) (allow_switches : bool) :
  ∃ e1s,
    edit_one_letter w allow_switches = Ok e1s
    ∧ ∀ x, x ∈ e1s ↔
        (∃ L c R, w = L +:+ String c R ∧ x = L +:+ R)
        ∨ (∃ L r0 r1 R, w = L +:+ String r0 (String r1 R)
                        ∧ x = L +:+ String r1 (String r0 R))
        ∨ (∃ L r0 R c, w = L +:+ String r0 R ∧ c ∈ Py.chars letters
                       ∧ x = L +:+ c +:+ R)
        ∨ (∃ L R c, w = L +:+ R ∧ c ∈ Py.chars letters
                    ∧ x = L +:+ c +:+ R).
Proof.
  eexists. split; [apply edit_one_letter_ok|]. intros x.
  by rewrite elem_of_list_to_set, elem_of_one_edits, elem_of_deletes,
    elem_of_transposes_list, elem_of_replaces, elem_of_inserts.
Qed.

Lemma size_one_edits w :
  26 ≤ size (list_to_set (one_edits w) : gset string)
  ∧ size (list_to_set (one_edits w) : gset string)
    ≤ 54 * String.length w + 26
  ∧ (w ≠ EmptyString →
     size (list_to_set (one_edits w) : gset string)
     ≤ 54 * String.length w + 25).
Proof.
  pose proof (size_list_to_set_le (one_edits w)) as Hle.
  rewrite length_one_edits in Hle.
  split; [|split; [lia|]].
  - assert (size (list_to_set ((λ x, x +:+ w) <$> Py.chars letters)
                    : gset string) = 26) as <-.
    { rewrite size_list_to_set by apply NoDup_front_inserts.
      by rewrite length_fmap. }
    apply subseteq_size. intros x. rewrite !elem_of_list_to_set.
    apply front_inserts_subseteq.
  - intros Hw. destruct w; [done|]. cbn [String.length] in *. lia.
Qed.

(** X2. [edit_one_letter] returns between 26 and [54 * len(word) + 26]
    candidates, and [54 * len(word) + 25] at most for a word that is not
    empty: the set is never empty and grows linearly with the word. *)
Theorem edit_one_letter_size (w : string) (allow_switches : bool) :
  ∃ e1s,
    edit_one_letter w allow_switches = Ok e1s
    ∧ 26 ≤ size e1s
    ∧ size e1s ≤ 54 * String.length w + 26
    ∧ (w ≠ EmptyString → size e1s ≤ 54 * String.length w + 25).
Proof.
  eexists. split; [apply edit_one_letter_ok|]. apply size_one_edits.
Qed.


Section MoreGenerators.

Variable iter : gset string → list string.
Hypothesis iter_elements : ∀ X : gset string, iter X ≡ₚ elements X.

(** X3. The candidates of a word over ['a'..'z'] are over ['a'..'z'], after
    one pass and after two. *)
Theorem edits_over_alphabet (w : string) (allow_switches : bool) :
  over_alphabet w →
  ∃ e1s e2s,
    edit_one_letter w allow_switches = Ok e1s
    ∧ edit_two_letters iter w allow_switches = Ok e2s
    ∧ (∀ x, x ∈ e1s → over_alphabet x)
    ∧ (∀ x, x ∈ e2s → over_alphabet x).
Proof.
  intros Hw.
  exists (list_to_set (one_edits w)), (list_to_set (two_edits w)).
  split; [apply edit_one_letter_ok|].
  split; [by apply edit_two_letters_ok|].
  split; intros x Hx%elem_of_list_to_set.
  - by eapply one_edits_over_alphabet.
  - by eapply two_edits_over_alphabet.
Qed.

(** X4. For a word [w] over ['a'..'z'] the edits can be undone: if [x] is a
    one-edit candidate of [w] then [w] is a one-edit candidate of [x], and
    the same holds for the two-edit candidates. *)
Theorem edits_symmetric (w x : string) (allow_switches : bool) :
  over_alphabet w →
  ∃ e1w e1x e2w e2x,
    edit_one_letter w allow_switches = Ok e1w
    ∧ edit_one_letter x allow_switches = Ok e1x
    ∧ edit_two_letters iter w allow_switches = Ok e2w
    ∧ edit_two_letters iter x allow_switches = Ok e2x
    ∧ (x ∈ e1w → w ∈ e1x)
    ∧ (x ∈ e2w → w ∈ e2x).
Proof.
  intros Hw.
  exists (list_to_set (one_edits w)), (list_to_set (one_edits x)),
    (list_to_set (two_edits w)), (list_to_set (two_edits x)).
  split; [apply edit_one_letter_ok|]. split; [apply edit_one_letter_ok|].
  split; [by apply edit_two_letters_ok|].
  split; [by apply edit_two_letters_ok|].
  rewrite !elem_of_list_to_set.
  split; [by apply one_edits_sym|by apply two_edits_sym].
Qed.

(** X5. [edit_two_letters] returns at most
    [(54 * len(word) + 26) * (54 * len(word) + 80)] candidates, and the
    word itself is always one of them (insert a letter, then delete it). *)
Theorem edit_two_letters_size (w : string) (allow_switches : bool) :
  ∃ e2s,
    edit_two_letters iter w allow_switches = Ok e2s
    ∧ w ∈ e2s
    ∧ size e2s ≤ (54 * String.length w + 26) * (54 * String.length w + 80).
Proof.
  exists (list_to_set (two_edits w)).
  split; [by apply edit_two_letters_ok|].
  split; [rewrite elem_of_list_to_set; apply two_edits_self|].
  etrans; [apply size_list_to_set_le|apply length_two_edits].
Qed.

End MoreGenerators.

(** ** More about [get_corrections] *)

Section MoreCorrections.

Variable iter : gset string → list string.

(** X6. The sort keeps ties in place: for every probability [k], the
    suggestions with probability [k] stand in the output in the order in
    which the iteration over the filtered set produced them. *)
Theorem get_corrections_stable
    (word : string) (probs : gmap string Q) (vocab : gset string) (k : Q) :
  ∃ e2s out,
    edit_two_letters iter word true = Ok e2s
    ∧ get_corrections iter word probs vocab = Ok out
    ∧ List.filter (has_key snd k) out =
      List.filter (has_key snd k) (scored probs <$> iter (e2s ∩ vocab)).
Proof.
  destruct (get_corrections_returns iter word probs vocab)
    as (e2s & He2s & Hout).
  eexists _, _. split; [exact He2s|]. split; [exact Hout|].
  apply filter_sorted_reverse.
Qed.

Hypothesis iter_elements : ∀ X : gset string, iter X ≡ₚ elements X.

Lemma get_corrections_perm word probs vocab :
  ∃ out,
    get_corrections iter word probs vocab = Ok out
    ∧ out.*1 ≡ₚ elements (list_to_set (two_edits word) ∩ vocab).
Proof.
  destruct (get_corrections_returns iter word probs vocab)
    as (e2s & He2s & ->).
  rewrite edit_two_letters_ok in He2s by done. injection He2s as <-.
  eexists. split; [reflexivity|].
  rewrite sorted_reverse_perm, <-list_fmap_compose, <-iter_elements.
  by rewrite (list_fmap_ext (fst ∘ scored probs) id), list_fmap_id.
Qed.

(** X7. No word is suggested twice, and the number of suggestions is the
    number of two-edit candidates that are in the vocabulary. *)
Theorem get_corrections_distinct
    (word : string) (probs : gmap string Q) (vocab : gset string) :
  ∃ e2s out,
    edit_two_letters iter word true = Ok e2s
    ∧ get_corrections iter word probs vocab = Ok out
    ∧ NoDup out.*1
    ∧ length out = size (e2s ∩ vocab).
Proof.
  destruct (get_corrections_perm word probs vocab) as (out & Hout & Hperm).
  exists (list_to_set (two_edits word)), out.
  split; [by apply edit_two_letters_ok|]. split; [done|].
  split.
  - rewrite Hperm. apply NoDup_elements.
  - rewrite <-(length_fmap fst), Hperm. reflexivity.
Qed.

(** X8. [get_corrections] returns the empty list exactly when no two-edit
    candidate is in the vocabulary; it is no error. *)
Theorem get_corrections_empty
    (word : string) (probs : gmap string Q) (vocab : gset string) :
  ∃ e2s out,
    edit_two_letters iter word true = Ok e2s
    ∧ get_corrections iter word probs vocab = Ok out
    ∧ (out = [] ↔ e2s ∩ vocab = ∅).
Proof.
  destruct (get_corrections_perm word probs vocab) as (out & Hout & Hperm).
  exists (list_to_set (two_edits word)), out.
  split; [by apply edit_two_letters_ok|]. split; [done|].
  split.
  - intros ->. apply leibniz_equiv, elements_empty_inv.
    symmetry. by apply Permutation_nil_l.
  - intros Hempty. rewrite Hempty, elements_empty in Hperm.
    apply Permutation_nil_r in Hperm. by destruct out.
Qed.

(** X9. Only the table entries of the filtered words matter: two tables
    that agree on the two-edit candidates in the vocabulary give the same
    ranking. *)
Theorem get_corrections_frame
    (word : string) (probs probs' : gmap string Q) (vocab : gset string) :
  ∃ e2s,
    edit_two_letters iter word true = Ok e2s
    ∧ ((∀ s, s ∈ e2s ∩ vocab → probs !! s = probs' !! s) →
       get_corrections iter word probs vocab =
       get_corrections iter word probs' vocab).
Proof.
  destruct (get_corrections_returns iter word probs vocab)
    as (e2s & He2s & ->).
  destruct (get_corrections_returns iter word probs' vocab)
    as (e2s' & He2s' & ->).
  rewrite He2s in He2s'. injection He2s' as <-.
  exists e2s. split; [done|]. intros Hagree. do 2 f_equal.
  apply list_fmap_ext. intros i s Hs%list_elem_of_lookup_2.
  apply (elem_of_iter iter iter_elements) in Hs.
  unfold scored, dict_get. by rewrite (Hagree s Hs).
Qed.

(** X10. A suggestion is at most two characters shorter or longer than the
    word. *)
Theorem get_corrections_lengths
    (word : string) (probs : gmap string Q) (vocab : gset string) :
  ∃ out,
    get_corrections iter word probs vocab = Ok out
    ∧ ∀ s p, (s, p) ∈ out →
             String.length word ≤ String.length s + 2
             ∧ String.length s ≤ String.length word + 2.
Proof.
  destruct (get_corrections_ok iter iter_elements word probs vocab)
    as (out & Hout & Hmem).
  exists out. split; [done|].
  intros s p (Hs & _)%Hmem. by apply two_edits_length.
Qed.

(** X11. A word of the vocabulary is always among its own suggestions, with
    its probability from the table or 0, whatever characters it has. *)
Theorem get_corrections_self
    (word : string) (probs : gmap string Q) (vocab : gset string) :
  word ∈ vocab →
  ∃ out,
    get_corrections iter word probs vocab = Ok out
    ∧ (word, dict_get probs word 0%Q) ∈ out.
Proof.
  intros Hv.
  destruct (get_corrections_ok iter iter_elements word probs vocab)
    as (out & Hout & Hmem).
  exists out. split; [done|]. apply Hmem.
  split; [apply two_edits_self|done].
Qed.

End MoreCorrections.


(** ** What [main] shows *)

Section Main.

Variable iter : gset string → list string.
Hypothesis iter_elements : ∀ X : gset string, iter X ≡ₚ elements X.

Lemma main_submitted_returns user_word probs vocab :
  ∃ out,
    get_corrections iter user_word probs vocab = Ok out
    ∧ main_submitted iter user_word probs vocab =
      Ok {| suggestion := enumerate 1 (take 5 out);
            one_edit_words := size (list_to_set (one_edits user_word)
                                      : gset string);
            two_edit_words := size (list_to_set (two_edits user_word)
                                      : gset string);
            valid_suggestions :=
              size (list_to_set (two_edits user_word) ∩ vocab) |}.
Proof.
  destruct (get_corrections_ok iter iter_elements user_word probs vocab)
    as (out & Hout & _).
  exists out. split; [done|]. unfold main_submitted.
  rewrite edit_one_letter_ok, edit_two_letters_ok, Hout by done.
  reflexivity.
Qed.

Lemma lookup_enumerate {A : Type} (start : nat) (l : list A) i n x :
  enumerate start l !! i = Some (n, x) ↔ n = start + i ∧ l !! i = Some x.
Proof.
  unfold enumerate. rewrite lookup_zip_with_Some. split.
  - intros (n' & x' & [= -> ->] & [-> _]%lookup_seq & Hx). done.
  - intros [-> Hx]. exists (start + i), x. split; [done|].
    split; [|done]. apply lookup_seq. split; [done|].
    by eapply lookup_lt_Some.
Qed.

(** X12. [main] shows the five best corrections, or all of them when there
    are fewer: the entries are numbered from 1 in the order of the ranking,
    and the probability of an entry that is shown is greater than or equal
    to that of every correction ranked after it, shown or not. *)
Theorem main_shows_top_five
    (user_word : string) (probs : gmap string Q) (vocab : gset string) :
  ∃ out m,
    get_corrections iter user_word probs vocab = Ok out
    ∧ main_submitted iter user_word probs vocab = Ok m
    ∧ length (suggestion m) = 5 `min` length out
    ∧ (∀ i n s p, suggestion m !! i = Some (n, (s, p)) ↔
                  i < 5 ∧ n = i + 1 ∧ out !! i = Some (s, p))
    ∧ (∀ i n s p j t q,
         suggestion m !! i = Some (n, (s, p)) → out !! j = Some (t, q) →
         i < j → (q <= p)%Q).
Proof.
  destruct (main_submitted_returns user_word probs vocab)
    as (out & Hout & Hm).
  eexists out, _. split; [done|]. split; [exact Hm|]. cbn [suggestion].
  assert (∀ i n s p, enumerate 1 (take 5 out) !! i = Some (n, (s, p)) ↔
                     i < 5 ∧ n = i + 1 ∧ out !! i = Some (s, p)) as Hshown.
  { intros i n s p. rewrite lookup_enumerate, lookup_take_Some.
    naive_solver lia. }
  split; [|split; [done|]].
  - unfold enumerate. by rewrite length_zip, length_seq, Nat.min_id, length_take.
  - intros i n s p j t q (_ & _ & Hi)%Hshown Hj Hij.
    destruct (get_corrections_sorted iter user_word probs vocab)
      as (out' & Hout' & Hsorted).
    rewrite Hout in Hout'. injection Hout' as <-. eauto.
Qed.

(** X13. The counts that [main] shows: between 26 and
    [54 * len(word) + 26] one-edit words; at least one two-edit word; the
    valid suggestions are as many as the corrections, and no more than the
    two-edit words or the vocabulary; for a word over ['a'..'z'] there are
    at least as many two-edit words as one-edit words. *)
Theorem main_counts
    (user_word : string) (probs : gmap string Q) (vocab : gset string) :
  ∃ out m,
    get_corrections iter user_word probs vocab = Ok out
    ∧ main_submitted iter user_word probs vocab = Ok m
    ∧ 26 ≤ one_edit_words m
    ∧ one_edit_words m ≤ 54 * String.length user_word + 26
    ∧ 1 ≤ two_edit_words m
    ∧ valid_suggestions m = length out
    ∧ valid_suggestions m ≤ two_edit_words m
    ∧ valid_suggestions m ≤ size vocab
    ∧ (over_alphabet user_word → one_edit_words m ≤ two_edit_words m).
Proof.
  destruct (main_submitted_returns user_word probs vocab)
    as (out & Hout & Hm).
  eexists out, _. split; [done|]. split; [exact Hm|].
  cbn [one_edit_words two_edit_words valid_suggestions].
  destruct (size_one_edits user_word) as (Hlo & Hhi & _).
  split; [done|]. split; [done|].
  split.
  { assert ({[ user_word ]} ⊆ (list_to_set (two_edits user_word) : gset string))
      as Hsub%subseteq_size.
    { intros x ->%elem_of_singleton. rewrite elem_of_list_to_set.
      apply two_edits_self. }
    by rewrite size_singleton in Hsub. }
  split.
  { destruct (get_corrections_perm iter iter_elements user_word probs vocab)
      as (out' & Hout' & Hperm).
    rewrite Hout in Hout'. injection Hout' as <-.
    by rewrite <-(length_fmap fst), Hperm. }
  split; [apply subseteq_size; set_solver|].
  split; [apply subseteq_size; set_solver|].
  intros Hw. apply subseteq_size. intros x. rewrite !elem_of_list_to_set.
  by apply one_edits_two_edits_alphabet.
Qed.

End Main.


(** ** The further properties at concrete inputs *)

Lemma over_alphabet_ab : over_alphabet "ab".
Proof.
  intros c Hc. apply list_elem_of_In in Hc. cbv in Hc.
  destruct Hc as [<-|[<-|[]]]; apply (bool_decide_unpack _); by vm_compute.
Qed.

Lemma edit_one_letter_size_witness :
  ∃ e1s, edit_one_letter "ab" true = Ok e1s ∧ size e1s ≤ 133.
Proof.
  destruct (edit_one_letter_size "ab" true) as (e1s & He1s & _ & _ & Hhi).
  exists e1s. split; [exact He1s|]. apply Hhi. discriminate.
Defined.

Lemma edits_over_alphabet_witness :
  ∃ e1s e2s,
    edit_one_letter "ab" true = Ok e1s
    ∧ edit_two_letters elements "ab" true = Ok e2s
    ∧ (∀ x, x ∈ e1s → over_alphabet x)
    ∧ (∀ x, x ∈ e2s → over_alphabet x).
Proof.
  exact (edits_over_alphabet elements elements_order "ab" true
           over_alphabet_ab).
Defined.

Lemma edits_symmetric_witness :
  ∃ e1w e1x e2w e2x,
    edit_one_letter "ab" true = Ok e1w
    ∧ edit_one_letter "abc" true = Ok e1x
    ∧ edit_two_letters elements "ab" true = Ok e2w
    ∧ edit_two_letters elements "abc" true = Ok e2x
    ∧ ("abc" ∈ e1w → "ab" ∈ e1x)
    ∧ ("abc" ∈ e2w → "ab" ∈ e2x).
Proof.
  exact (edits_symmetric elements elements_order "ab" "abc" true
           over_alphabet_ab).
Defined.

Lemma edit_two_letters_size_witness :
  ∃ e2s,
    edit_two_letters elements "ab" true = Ok e2s
    ∧ "ab" ∈ e2s
    ∧ size e2s ≤ (54 * 2 + 26) * (54 * 2 + 80).
Proof. exact (edit_two_letters_size elements elements_order "ab" true). Defined.

Lemma get_corrections_distinct_witness :
  ∃ e2s out,
    edit_two_letters elements "ab" true = Ok e2s
    ∧ get_corrections elements "ab" example_probs example_vocab = Ok out
    ∧ NoDup out.*1
    ∧ length out = size (e2s ∩ example_vocab).
Proof.
  exact (get_corrections_distinct elements elements_order "ab" example_probs
           example_vocab).
Defined.

Lemma get_corrections_empty_witness :
  ∃ out, get_corrections elements "ab" example_probs ∅ = Ok out ∧ out = [].
Proof.
  destruct (get_corrections_empty elements elements_order "ab" example_probs ∅)
    as (e2s & out & _ & Hout & Hempty).
  exists out. split; [exact Hout|]. apply Hempty.
  apply leibniz_equiv. intros x. rewrite elem_of_intersection, elem_of_empty.
  tauto.
Defined.

Lemma get_corrections_frame_witness :
  get_corrections elements EmptyString example_probs example_vocab =
  get_corrections elements EmptyString (<[ "zebra" := 1%Q ]> example_probs)
    example_vocab.
Proof.
  destruct (get_corrections_frame elements elements_order EmptyString
              example_probs (<[ "zebra" := 1%Q ]> example_probs) example_vocab)
    as (e2s & _ & Hframe).
  apply Hframe. intros s [_ Hs]%elem_of_intersection.
  unfold example_vocab in Hs.
  rewrite !elem_of_union, !elem_of_singleton in Hs.
  destruct Hs as [[-> | ->] | ->]; by vm_compute.
Defined.

Lemma get_corrections_lengths_witness :
  ∃ out,
    get_corrections elements "ab" example_probs example_vocab = Ok out
    ∧ ∀ s p, (s, p) ∈ out → 2 ≤ String.length s + 2 ∧ String.length s ≤ 4.
Proof.
  exact (get_corrections_lengths elements elements_order "ab" example_probs
           example_vocab).
Defined.

Lemma get_corrections_self_witness :
  ∃ out,
    get_corrections elements "A" ∅ {[ "A" ]} = Ok out ∧ ("A", 0%Q) ∈ out.
Proof.
  destruct (get_corrections_self elements elements_order "A" ∅ {[ "A" ]})
    as (out & Hout & Hin); [by apply elem_of_singleton|].
  exists out. split; [exact Hout|].
  unfold dict_get in Hin. rewrite lookup_empty in Hin. exact Hin.
Defined.

Lemma main_shows_top_five_witness :
  ∃ out m,
    get_corrections elements "ab" example_probs example_vocab = Ok out
    ∧ main_submitted elements "ab" example_probs example_vocab = Ok m
    ∧ length (suggestion m) = 5 `min` length out.
Proof.
  destruct (main_shows_top_five elements elements_order "ab" example_probs
              example_vocab) as (out & m & Hout & Hm & Hlen & _).
  exists out, m. split; [exact Hout|]. split; [exact Hm|]. exact Hlen.
Defined.

Lemma main_counts_witness :
  ∃ out m,
    get_corrections elements "ab" example_probs example_vocab = Ok out
    ∧ main_submitted elements "ab" example_probs example_vocab = Ok m
    ∧ one_edit_words m ≤ two_edit_words m.
Proof.
  destruct (main_counts elements elements_order "ab" example_probs
              example_vocab)
    as (out & m & Hout & Hm & _ & _ & _ & _ & _ & _ & Hle).
  exists out, m. split; [exact Hout|]. split; [exact Hm|].
  exact (Hle over_alphabet_ab).
Defined.

Lemma one_edit_set_subset_alphabet_witness :
  ∃ e1s e2s,
    edit_one_letter "ab" true = Ok e1s
    ∧ edit_two_letters elements "ab" true = Ok e2s
    ∧ e1s ⊆ e2s.
Proof.
  exact (one_edit_set_subset_alphabet elements elements_order "ab"
           over_alphabet_ab).
Defined.

(** ** The inclusion of the one-edit set, on words *)

(** C6 fails on words: no word over ['a'..'z'] has a one-edit candidate
    that is missing from its two-edit set. *)
Lemma no_word_with_edit_outside_two_edits :
  ¬ ∃ w x e1s e2s,
      over_alphabet w
      ∧ edit_one_letter w true = Ok e1s
      ∧ edit_two_letters elements w true = Ok e2s
      ∧ x ∈ e1s ∧ x ∉ e2s.
Proof.
  intros (w & x & e1s & e2s & Hw & He1s & He2s & Hx & Hnx).
  rewrite edit_one_letter_ok in He1s. injection He1s as <-.
  rewrite edit_two_letters_ok in He2s by apply elements_order.
  injection He2s as <-.
  rewrite elem_of_list_to_set in Hx, Hnx.
  by apply Hnx, one_edits_two_edits_alphabet.
Qed.

Lemma two_edit_set_superset_on_words_witness :
  (∃ e1s e2s,
     edit_one_letter "ab" true = Ok e1s
     ∧ edit_two_letters elements "ab" true = Ok e2s
     ∧ ∀ x, x ∈ e1s → x ∈ e2s)
  ∧ (∃ w x e1s e2s,
       outside_alphabet w
       ∧ edit_one_letter w true = Ok e1s
       ∧ edit_two_letters elements w true = Ok e2s
       ∧ x ∈ e1s ∧ x ∉ e2s).
Proof.
  destruct (two_edit_set_superset_on_words elements elements_order)
    as (Hwords & _ & Hother).
  split; [exact (Hwords "ab" over_alphabet_ab)|exact Hother].
Defined.

Lemma over_alphabet_cat : over_alphabet "cat".
Proof.
  intros c Hc. apply list_elem_of_In in Hc. cbv in Hc.
  destruct Hc as [<-|[<-|[<-|[]]]]; apply (bool_decide_unpack _); by vm_compute.
Qed.

Lemma nonempty_word_suggests_itself_witness :
  ∃ e1s out,
    edit_one_letter "cat" true = Ok e1s
    ∧ get_corrections elements "cat" example_probs {[ "cat" ]} = Ok out
    ∧ "cat" ∈ e1s
    ∧ ("cat", dict_get example_probs "cat" 0%Q) ∈ out.
Proof.
  destruct (nonempty_word_suggests_itself elements elements_order "cat"
              example_probs {[ "cat" ]})
    as (e1s & e2s & out & He1s & _ & Hout & Hself & Hvocab);
    [discriminate|exact over_alphabet_cat|].
  exists e1s, out. split; [exact He1s|]. split; [exact Hout|].
  split; [exact Hself|].
  apply Hvocab. apply elem_of_singleton. reflexivity.
Defined.
